(** * MINRES kernel of Eigen (IterativeLinearSolvers/MINRES.h), shallow embedding.

    Scalars are modelled as exact reals ([R]); the kernel is the real-scalar
    instance of [internal::minres] ([Scalar = RealScalar]).  Vectors are
    [list R]; the matrix product [mat*u] and [precond.solve(u)] are opaque
    functions, as in the template code.  Every call of one of them is logged
    in a small writer monad, so that the number of operator applications
    and preconditioner solves can be read off a run.

    Variables that the C++ code declares without initialising them
    ([v_old], [w], [beta], [p], [residualNorm2]) take their indeterminate
    initial contents from a record [indet] given as an extra argument.

    [std::pow(y,0.5)] is modelled as [sqrt y]. *)

From Stdlib Require Import Reals Lra Psatz List ZArith.
Import ListNotations.
Open Scope R_scope.

(** ** Vectors *)

Definition vec := list R.

Definition vzero (n : nat) : vec := repeat 0 n.
Definition vadd (u v : vec) : vec := map (fun ab => fst ab + snd ab) (combine u v).
Definition vsub (u v : vec) : vec := map (fun ab => fst ab - snd ab) (combine u v).
Definition vscale (a : R) (u : vec) : vec := map (fun t => a * t) u.
Definition vdiv (u : vec) (a : R) : vec := map (fun t => t / a) u.
Definition dot (u v : vec) : R :=
  fold_right Rplus 0 (map (fun ab => fst ab * snd ab) (combine u v)).
Definition squaredNorm (u : vec) : R := dot u u.

(** ** Logged effects: operator application and preconditioner solve *)

Inductive event := OpApply | PrecSolve.

Definition M (T : Type) : Type := (T * list event)%type.
Definition ret {T} (t : T) : M T := (t, []).
Definition bind {T U} (m : M T) (f : T -> M U) : M U :=
  let '(t, l1) := m in let '(u, l2) := f t in (u, l1 ++ l2).

Notation "x <- m ;; k" := (bind m (fun x => k))
  (at level 61, m at next level, right associativity).

Definition count_ev (e : event) (l : list event) : nat :=
  length (filter (fun e' => match e, e' with
                            | OpApply, OpApply | PrecSolve, PrecSolve => true
                            | _, _ => false end) l).

(** ** Kernel state: the local variables of [internal::minres] *)

Record state := mkState {
  x : vec;
  v_old : vec; v : vec; v_new : vec;
  w : vec; w_new : vec;
  beta : R; beta_new : R;
  c : R; c_old : R; s : R; s_old : R;
  p_oold : vec; p_old : vec; p : vec;
  norm_rMR : R; eta : R;
  residualNorm2 : R;
  n : Z }.

(** Indeterminate initial contents of the variables declared without an
    initialiser. *)
Record indet := mkIndet {
  g_v_old : vec; g_w : vec; g_beta : R; g_p : vec; g_residualNorm2 : R }.

Section Kernel.

Variable mat : vec -> vec.        (* u |-> mat*u *)
Variable precond : vec -> vec.    (* u |-> precond.solve(u) *)

Definition mat_mul (u : vec) : M vec := (mat u, [OpApply]).
Definition precond_solve (u : vec) : M vec := (precond u, [PrecSolve]).

(** Initialisation, lines 41-86. *)
Definition minres_init (rhs x0 : vec) (g : indet) : M state :=
  let N := length x0 in
  Ax <- mat_mul x0 ;;
  let residual := vsub rhs Ax in
  let v_new0 := residual in
  w_new0 <- precond_solve v_new0 ;;
  let beta_new0 := sqrt (dot v_new0 w_new0) in
  let v_new1 := vdiv v_new0 beta_new0 in
  let w_new1 := vdiv w_new0 beta_new0 in
  let p_oold0 := vzero N in
  ret (mkState x0 (g_v_old g) (vzero N) v_new1 (g_w g) w_new1
               (g_beta g) beta_new0
               1 1 0 0
               p_oold0 p_oold0 (g_p g)
               (g_beta g) 1
               (g_residualNorm2 g) 0%Z).

(** One execution of the loop body, lines 100-164.  The boolean is [true]
    when the body leaves the loop through [break]. *)
Definition minres_body (rhs : vec) (threshold2 : R) (st : state) : M (state * bool) :=
  let beta1 := beta_new st in
  let v_old1 := v st in
  let v1 := v_new st in
  let w1 := w_new st in
  Aw <- mat_mul w1 ;;
  let v_new1 := vsub Aw (vscale beta1 v_old1) in
  let alpha := dot v_new1 w1 in
  let v_new2 := vsub v_new1 (vscale alpha v1) in
  w_new1 <- precond_solve v_new2 ;;
  let beta_new1 := sqrt (dot v_new2 w_new1) in
  let v_new3 := vdiv v_new2 beta_new1 in
  let w_new2 := vdiv w_new1 beta_new1 in
  let r2 := s st * alpha + c st * c_old st * beta1 in
  let r3 := s_old st * beta1 in
  let r1_hat := c st * alpha - c_old st * s st * beta1 in
  let r1 := sqrt (r1_hat ^ 2 + beta_new1 ^ 2) in
  let c_old1 := c st in
  let s_old1 := s st in
  let c1 := r1_hat / r1 in
  let s1 := beta1 / r1 in
  let p_oold1 := p_old st in
  let p_old1 := p st in
  let p1 := vdiv (vsub (vsub w1 (vscale r2 p_old1)) (vscale r3 p_oold1)) r1 in
  let x1 := vadd (x st) (vscale (c1 * eta st) p1) in
  let norm_rMR1 := norm_rMR st * Rabs s1 in
  Ax <- mat_mul x1 ;;
  let residualNorm2_1 := squaredNorm (vsub Ax rhs) in
  let st1 := mkState x1 v_old1 v1 v_new3 w1 w_new2 beta1 beta_new1
                     c1 c_old1 s1 s_old1 p_oold1 p_old1 p1
                     norm_rMR1 (eta st) residualNorm2_1 (n st) in
  if Rlt_dec residualNorm2_1 threshold2 then ret (st1, true)
  else ret (mkState x1 v_old1 v1 v_new3 w1 w_new2 beta1 beta_new1
                    c1 c_old1 s1 s_old1 p_oold1 p_old1 p1
                    norm_rMR1 (- s1 * eta st) residualNorm2_1 (n st + 1)%Z,
            false).

(** The loop [while (n < maxIters) { ... }], lines 87-165.  [n] starts at 0
    and grows by one per completed body, so [Z.to_nat maxIters] rounds of
    fuel always suffice: the guard is false when the fuel runs out. *)
Fixpoint minres_loop (fuel : nat) (rhs : vec) (threshold2 : R) (maxIters : Z)
    (st : state) : M state :=
  match fuel with
  | O => ret st
  | S f =>
      if Z.ltb (n st) maxIters then
        r <- minres_body rhs threshold2 st ;;
        let '(st', brk) := r in
        if brk then ret st' else minres_loop f rhs threshold2 maxIters st'
      else ret st
  end.

(** Outputs of the kernel: the solution [x], and the new values of the
    in/out parameters [iters] and [tol_error]. *)
Record result := mkResult { res_x : vec; res_iters : Z; res_tol_error : R }.

Definition minres (rhs x0 : vec) (iters : Z) (tol_error : R) (g : indet) : M result :=
  let maxIters := iters in
  let rhsNorm2 := squaredNorm rhs in
  let threshold2 := tol_error * tol_error * rhsNorm2 in
  st0 <- minres_init rhs x0 g ;;
  st <- minres_loop (Z.to_nat maxIters) rhs threshold2 maxIters st0 ;;
  ret (mkResult (x st) (n st) (sqrt (residualNorm2 st / rhsNorm2))).

End Kernel.

(** ** The [MINRES] wrapper class: [_solveWithGuess] and [_solve]

    The kernel is passed in as a function from a right-hand-side column,
    an initial guess and the in/out values of [iters] and [tol_error] to the
    solution column and the new [iters] and [tol_error]. *)

Inductive ComputationInfo := Success | NoConvergence.

Section Wrapper.

Variable kernel : vec -> vec -> Z -> R -> (vec * Z * R).
Variable maxIterations : Z.     (* Base::maxIterations() *)
Variable m_tolerance : R.       (* Base::m_tolerance *)

(** The loop [for (j = 0; j < b.cols(); ++j)] of [_solveWithGuess]; [b]
    and [x] are lists of columns. *)
Fixpoint solve_columns (bs xs : list vec) (m_iterations : Z) (m_error : R)
    : list vec * Z * R :=
  match bs, xs with
  | bj :: bs', xj :: xs' =>
      let '(xj', it, err) := kernel bj xj maxIterations m_tolerance in
      let '(rest, it', err') := solve_columns bs' xs' it err in
      (xj' :: rest, it', err')
  | _, _ => (xs, m_iterations, m_error)
  end.

Definition _solveWithGuess (b x : list vec) : list vec * Z * R * ComputationInfo :=
  let '(x', m_iterations, m_error) := solve_columns b x maxIterations m_tolerance in
  (x', m_iterations, m_error,
   if Rle_dec m_error m_tolerance then Success else NoConvergence).

(** [x.setOnes()] *)
Definition setOnes (x : list vec) : list vec := map (map (fun _ => 1)) x.

Definition _solve (b x : list vec) : list vec * Z * R * ComputationInfo :=
  _solveWithGuess b (setOnes x).

End Wrapper.

(** ** Concrete problems and auxiliary definitions *)

(** [IdentityPreconditioner::solve]. *)
Definition precond_id (u : vec) : vec := u.

(** A concrete indefinite problem:

    [A = ((3,4),(4,0))], identity preconditioner, [b = (1,0)], [x0 = (0,0)].
    Every square root met in the first iteration is exact:
    [sqrt 1 = 1] (initial [beta_new]), [sqrt 16 = 4] (new [beta_new]) and
    [sqrt (3^2 + 4^2) = 5] ([r1]). *)
Definition mat3 (u : vec) : vec :=
  match u with [a; b] => [3 * a + 4 * b; 4 * a] | _ => u end.
Definition rhs3 : vec := [1; 0].
Definition x03 : vec := [0; 0].
Definition g0_3 : indet := mkIndet [0; 0] [0; 0] 0 [0; 0] 0.
(** Same, with the uninitialised [p] holding [(1,0)]. *)
Definition g1_3 : indet := mkIndet [0; 0] [0; 0] 0 [1; 0] 0.

(** Updating the cheap residual estimate [norm_rMR] alone. *)
Definition with_norm_rMR (m : R) (st : state) : state :=
  mkState (x st) (v_old st) (v st) (v_new st) (w st) (w_new st)
          (beta st) (beta_new st) (c st) (c_old st) (s st) (s_old st)
          (p_oold st) (p_old st) (p st) m (eta st) (residualNorm2 st) (n st).

(** A kernel returning its initial guess unchanged. *)
Definition echo_kernel (bj xj : vec) (it : Z) (tol : R) : vec * Z * R := (xj, it, tol).

(** The calls made by one body execution, in order. *)
Definition body_trace : list event := [OpApply; PrecSolve; OpApply].

(** The part of the kernel state that the code reads before overwriting it:
    everything except [v_old], [w], [beta] and [p_oold] (assigned in each
    body before any use) and [norm_rMR] (read only to update itself). *)
Definition core (st : state) :=
  (x st, v st, v_new st, w_new st, beta_new st, c st, c_old st, s st, s_old st,
   p_old st, p st, eta st, residualNorm2 st, n st).

(** [internal::minres] as called by [_solveWithGuess] on one column
    (lines 304-305): solution column, new [m_iterations], new [m_error]. *)
Definition minres_kernel (mat precond : vec -> vec) (g : indet)
    (bj xj : vec) (iters : Z) (tol_error : R) : vec * Z * R :=
  let r := fst (minres mat precond bj xj iters tol_error g) in
  (res_x r, res_iters r, res_tol_error r).

(** Successive executions of the loop body, ignoring the guard: the state
    after one body, whether that body leaves through [break], and the state
    after [i] bodies. *)
Definition body_step (mat precond : vec -> vec) (rhs : vec) (thr : R) (st : state) : state :=
  fst (fst (minres_body mat precond rhs thr st)).

Definition body_breaks (mat precond : vec -> vec) (rhs : vec) (thr : R) (st : state) : bool :=
  snd (fst (minres_body mat precond rhs thr st)).

Fixpoint body_iter (mat precond : vec -> vec) (rhs : vec) (thr : R) (i : nat) (st : state)
    : state :=
  match i with
  | O => st
  | S j => body_iter mat precond rhs thr j (body_step mat precond rhs thr st)
  end.

(** ** General facts about one body execution *)

Lemma minres_body_trace mat precond rhs thr st :
  snd (minres_body mat precond rhs thr st) = body_trace.
Proof.
  unfold minres_body, bind, mat_mul, precond_solve, ret; cbn.
  destruct (Rlt_dec _ _); reflexivity.
Qed.

Lemma fst_bind {T U} (m : M T) (f : T -> M U) : fst (bind m f) = fst (f (fst m)).
Proof. destruct m as [t l1]; cbn; destruct (f t); reflexivity. Qed.

Lemma snd_bind {T U} (m : M T) (f : T -> M U) :
  snd (bind m f) = snd m ++ snd (f (fst m)).
Proof. destruct m as [t l1]; cbn; destruct (f t); reflexivity. Qed.

Lemma dot_self_nonneg (u : vec) : 0 <= dot u u.
Proof.
  induction u as [|a u IH]; cbn; [lra|].
  unfold dot in IH; nra.
Qed.

Lemma squaredNorm_nonneg (u : vec) : 0 <= squaredNorm u.
Proof. apply dot_self_nonneg. Qed.

Lemma squaredNorm_vzero (k : nat) : squaredNorm (vzero k) = 0.
Proof. induction k as [|k IH]; cbn; [reflexivity|]. unfold squaredNorm, dot, vzero in IH; rewrite IH; ring. Qed.

(** The effect of one body execution, field by field. *)
Lemma minres_body_spec mat precond rhs thr st :
  let Aw := mat (w_new st) in
  let v_new1 := vsub Aw (vscale (beta_new st) (v st)) in
  let alpha := dot v_new1 (w_new st) in
  let v_new2 := vsub v_new1 (vscale alpha (v_new st)) in
  let beta_new1 := sqrt (dot v_new2 (precond v_new2)) in
  let r1_hat := c st * alpha - c_old st * s st * beta_new st in
  let r1 := sqrt (r1_hat ^ 2 + beta_new1 ^ 2) in
  let '(st', brk) := fst (minres_body mat precond rhs thr st) in
  beta st' = beta_new st /\ beta_new st' = beta_new1 /\
  c st' = r1_hat / r1 /\ s st' = beta_new st / r1 /\
  c_old st' = c st /\ s_old st' = s st /\
  residualNorm2 st' = squaredNorm (vsub (mat (x st')) rhs) /\
  (brk = true <-> residualNorm2 st' < thr) /\
  n st' = (if brk then n st else (n st + 1)%Z).
Proof.
  cbn zeta. unfold minres_body, bind, mat_mul, precond_solve, ret; cbn.
  destruct (Rlt_dec _ _) as [H|H]; cbn;
    repeat split; intros; solve [reflexivity | assumption | discriminate | contradiction].
Qed.

(** ** The loop *)

Lemma minres_loop_shape mat precond rhs thr k : forall fuel st,
  Z.of_nat fuel = (k - n st)%Z -> (n st <= k)%Z ->
  let '(st', tr) := minres_loop mat precond fuel rhs thr k st in
  exists B : nat,
    tr = concat (repeat body_trace B) /\ (n st + Z.of_nat B <= k)%Z /\
    (n st' = (n st + Z.of_nat B)%Z \/ (1 <= B)%nat /\ n st' = (n st + Z.of_nat B - 1)%Z).
Proof.
  induction fuel as [|f IH]; intros st Hf Hk; cbn [minres_loop].
  - exists 0%nat; cbn; repeat split; lia.
  - replace (Z.ltb (n st) k) with true by (symmetry; apply Z.ltb_lt; lia).
    pose proof (minres_body_spec mat precond rhs thr st) as Hs.
    pose proof (minres_body_trace mat precond rhs thr st) as Ht.
    destruct (minres_body mat precond rhs thr st) as [[st1 brk] tr1]; cbn in Hs, Ht |- *.
    subst tr1.
    destruct Hs as (_ & _ & _ & _ & _ & _ & _ & _ & Hn).
    destruct brk.
    + exists 1%nat; cbn; repeat split; lia.
    + specialize (IH st1 ltac:(lia) ltac:(lia)).
      cbn [bind].
      destruct (minres_loop mat precond f rhs thr k st1) as [st' tr'].
      destruct IH as (B & -> & HB & Hn').
      exists (S B); cbn; repeat split; lia.
Qed.

Lemma body_iter_S mat precond rhs thr j st :
  body_iter mat precond rhs thr (S j) st =
  body_iter mat precond rhs thr j (body_step mat precond rhs thr st).
Proof. reflexivity. Qed.

(** The loop runs [B] bodies from [st] and stops either in body [B] through
    the [break] (with [n] not advanced by that body) or through the guard
    once [n] reaches [maxIters] (every body having continued). *)
Lemma minres_loop_exit_kind mat precond rhs thr k : forall fuel st,
  Z.of_nat fuel = (k - n st)%Z -> (n st <= k)%Z ->
  let '(st', tr) := minres_loop mat precond fuel rhs thr k st in
  exists B : nat,
    tr = concat (repeat body_trace B) /\ (n st + Z.of_nat B <= k)%Z /\
    st' = body_iter mat precond rhs thr B st /\
    ((exists j, B = S j /\
        (forall i, (i < j)%nat ->
           body_breaks mat precond rhs thr (body_iter mat precond rhs thr i st) = false) /\
        body_breaks mat precond rhs thr (body_iter mat precond rhs thr j st) = true /\
        n st' = (n st + Z.of_nat j)%Z) \/
     ((forall i, (i < B)%nat ->
         body_breaks mat precond rhs thr (body_iter mat precond rhs thr i st) = false) /\
      (n st + Z.of_nat B = k)%Z /\ n st' = (n st + Z.of_nat B)%Z)).
Proof.
  induction fuel as [|f IH]; intros st Hf Hk; cbn [minres_loop].
  - exists 0%nat; cbn; split; [reflexivity|]. split; [lia|]. split; [reflexivity|].
    right; split; [intros i Hi; lia | lia].
  - replace (Z.ltb (n st) k) with true by (symmetry; apply Z.ltb_lt; lia).
    pose proof (minres_body_spec mat precond rhs thr st) as Hs.
    pose proof (minres_body_trace mat precond rhs thr st) as Ht.
    assert (Hstep : body_step mat precond rhs thr st =
                    fst (fst (minres_body mat precond rhs thr st))) by reflexivity.
    assert (Hbr : body_breaks mat precond rhs thr st =
                  snd (fst (minres_body mat precond rhs thr st))) by reflexivity.
    destruct (minres_body mat precond rhs thr st) as [[st1 brk] tr1];
      cbn [fst snd] in Hs, Ht, Hstep, Hbr |- *.
    subst tr1.
    destruct Hs as (_ & _ & _ & _ & _ & _ & _ & _ & Hn).
    destruct brk.
    + exists 1%nat; cbn [bind ret]. split; [reflexivity|]. split; [lia|].
      split; [rewrite body_iter_S, Hstep; reflexivity|].
      left; exists 0%nat; split; [reflexivity|]. split; [intros i Hi; lia|].
      split; [exact Hbr | cbn [body_iter]; lia].
    + specialize (IH st1 ltac:(lia) ltac:(lia)).
      cbn [bind].
      destruct (minres_loop mat precond f rhs thr k st1) as [st' tr'].
      cbv beta iota in IH |- *.
      destruct IH as (B & -> & HB & Hst & Hx).
      exists (S B). split; [reflexivity|]. split; [lia|].
      split; [rewrite body_iter_S, Hstep; exact Hst|].
      assert (Hall : forall m, (forall i, (i < m)%nat ->
                 body_breaks mat precond rhs thr (body_iter mat precond rhs thr i st1) = false) ->
               forall i, (i < S m)%nat ->
                 body_breaks mat precond rhs thr (body_iter mat precond rhs thr i st) = false).
      { intros m Hm [|i] Hi; [exact Hbr|].
        rewrite body_iter_S, Hstep; apply Hm; lia. }
      destruct Hx as [(j & -> & Hpre & Hj & Hn') | (Hpre & HBk & Hn')].
      * left; exists (S j); split; [reflexivity|].
        split; [apply Hall, Hpre|].
        split; [rewrite body_iter_S, Hstep; exact Hj | lia].
      * right; split; [apply Hall, Hpre | lia].
Qed.

(** When the threshold is not positive the break is never taken: the loop
    runs until [n] reaches [maxIters]. *)
Lemma minres_loop_no_break mat precond rhs thr k : forall fuel st,
  thr <= 0 ->
  Z.of_nat fuel = (k - n st)%Z -> (n st <= k)%Z ->
  let '(st', tr) := minres_loop mat precond fuel rhs thr k st in
  n st' = k /\ tr = concat (repeat body_trace fuel).
Proof.
  induction fuel as [|f IH]; intros st Hthr Hf Hk; cbn [minres_loop].
  - cbn; split; [lia | reflexivity].
  - replace (Z.ltb (n st) k) with true by (symmetry; apply Z.ltb_lt; lia).
    pose proof (minres_body_spec mat precond rhs thr st) as Hs.
    pose proof (minres_body_trace mat precond rhs thr st) as Ht.
    destruct (minres_body mat precond rhs thr st) as [[st1 brk] tr1]; cbn in Hs, Ht |- *.
    subst tr1.
    destruct Hs as (_ & _ & _ & _ & _ & _ & Hr & Hb & Hn).
    destruct brk.
    + exfalso. pose proof (squaredNorm_nonneg (vsub (mat (x st1)) rhs)).
      pose proof (proj1 Hb eq_refl) as Hlt. lra.
    + specialize (IH st1 Hthr ltac:(lia) ltac:(lia)).
      destruct (minres_loop mat precond f rhs thr k st1) as [st' tr'].
      destruct IH as [Hn' ->]; split; [exact Hn' | reflexivity].
Qed.

(** After at least one body execution, [residualNorm2] holds the squared
    residual of the current [x]; later executions keep this true. *)
Lemma minres_loop_residual mat precond rhs thr k : forall fuel st,
  ((1 <= fuel)%nat /\ (n st < k)%Z \/
   residualNorm2 st = squaredNorm (vsub (mat (x st)) rhs)) ->
  let st' := fst (minres_loop mat precond fuel rhs thr k st) in
  residualNorm2 st' = squaredNorm (vsub (mat (x st')) rhs).
Proof.
  induction fuel as [|f IH]; intros st Hpre; cbn [minres_loop].
  - destruct Hpre as [[H _] | H]; [lia | exact H].
  - destruct (Z.ltb (n st) k) eqn:Elt.
    + pose proof (minres_body_spec mat precond rhs thr st) as Hs.
      destruct (minres_body mat precond rhs thr st) as [[st1 brk] tr1]; cbn in Hs |- *.
      destruct Hs as (_ & _ & _ & _ & _ & _ & Hr & _).
      destruct brk; cbn; [exact Hr|].
      specialize (IH st1 (or_intror Hr)); cbn in IH.
      destruct (minres_loop mat precond f rhs thr k st1); exact IH.
    + destruct Hpre as [[_ H] | H]; [apply Z.ltb_ge in Elt; lia | exact H].
Qed.

(** ** The whole kernel *)

Lemma minres_init_trace mat precond rhs x0 g :
  snd (minres_init mat precond rhs x0 g) = [OpApply; PrecSolve].
Proof. reflexivity. Qed.

Lemma minres_init_fields mat precond rhs x0 g :
  let st0 := fst (minres_init mat precond rhs x0 g) in
  x st0 = x0 /\ v st0 = vzero (length x0) /\
  p_oold st0 = vzero (length x0) /\ p_old st0 = vzero (length x0) /\ p st0 = g_p g /\
  c st0 = 1 /\ c_old st0 = 1 /\ s st0 = 0 /\ s_old st0 = 0 /\ eta st0 = 1 /\
  norm_rMR st0 = g_beta g /\ residualNorm2 st0 = g_residualNorm2 g /\ n st0 = 0%Z.
Proof. repeat split. Qed.

Lemma minres_fst mat precond rhs x0 iters tol g :
  let st0 := fst (minres_init mat precond rhs x0 g) in
  let thr := tol * tol * squaredNorm rhs in
  let st := fst (minres_loop mat precond (Z.to_nat iters) rhs thr iters st0) in
  fst (minres mat precond rhs x0 iters tol g) =
  mkResult (x st) (n st) (sqrt (residualNorm2 st / squaredNorm rhs)).
Proof. unfold minres; cbv zeta; rewrite fst_bind; cbv beta; rewrite fst_bind; reflexivity. Qed.

Lemma minres_snd mat precond rhs x0 iters tol g :
  let st0 := fst (minres_init mat precond rhs x0 g) in
  let thr := tol * tol * squaredNorm rhs in
  snd (minres mat precond rhs x0 iters tol g) =
  [OpApply; PrecSolve] ++ snd (minres_loop mat precond (Z.to_nat iters) rhs thr iters st0).
Proof.
  unfold minres; cbv zeta; rewrite snd_bind; cbv beta; rewrite snd_bind; cbn.
  rewrite app_nil_r; reflexivity.
Qed.


Lemma sqrt_of_sq (e y : R) : 0 <= y -> e = y * y -> sqrt e = y.
Proof. intros H ->. apply sqrt_square; exact H. Qed.

Ltac no_sqrt e := match e with context [sqrt _] => fail 1 | _ => idtac end.

(** Replace an innermost [sqrt e] whose value is one of a few naturals. *)
Ltac sqrt_num :=
  match goal with
  | |- context [sqrt ?e] =>
      no_sqrt e;
      first [ rewrite (sqrt_of_sq e 0) by solve [lra | field]
            | rewrite (sqrt_of_sq e 1) by solve [lra | field]
            | rewrite (sqrt_of_sq e 4) by solve [lra | field]
            | rewrite (sqrt_of_sq e 5) by solve [lra | field] ]
  end.

Ltac vec_eq :=
  repeat match goal with
         | |- (_ :: _) = (_ :: _) => f_equal
         end.

Ltac run_concrete :=
  unfold minres_init, minres_body, bind, mat_mul, precond_solve, ret,
    mat3, precond_id; cbn; repeat sqrt_num.

(** The first iteration on the concrete problem. *)
Lemma first_iteration_3 thr :
  let st1 := fst (fst (minres_body mat3 precond_id rhs3 thr
                         (fst (minres_init mat3 precond_id rhs3 x03 g0_3)))) in
  beta st1 = 1 /\ beta_new st1 = 4 /\ c st1 = 3 / 5 /\ s st1 = 1 / 5 /\
  x st1 = [3 / 25; 0] /\ residualNorm2 st1 = 16 / 25.
Proof.
  run_concrete; destruct (Rlt_dec _ _); cbn;
    repeat split; vec_eq; field.
Qed.

Lemma map_const_repeat {T} (k : R) (l : list T) : map (fun _ => k) l = repeat k (length l).
Proof. induction l as [|a l IH]; cbn; [reflexivity | now rewrite IH]. Qed.

Lemma solve_columns_nth kernel mi tol : forall bs xs it err j bj xj,
  nth_error bs j = Some bj -> nth_error xs j = Some xj ->
  nth_error (fst (fst (solve_columns kernel mi tol bs xs it err))) j =
  Some (fst (fst (kernel bj xj mi tol))).
Proof.
  induction bs as [|b0 bs IH]; intros xs it err j bj xj Hb Hx.
  - destruct j; discriminate.
  - destruct xs as [|x0 xs]; [destruct j; discriminate|].
    cbn [solve_columns].
    destruct (kernel b0 x0 mi tol) as [[xj' it'] err'] eqn:Ek.
    specialize (IH xs it' err').
    destruct (solve_columns kernel mi tol bs xs it' err') as [[rest it''] err''] eqn:Er.
    destruct j as [|j]; cbn in Hb, Hx |- *.
    + injection Hb as <-; injection Hx as <-; rewrite Ek; reflexivity.
    + specialize (IH j bj xj Hb Hx); cbn in IH; exact IH.
Qed.

(** ** Claims *)

(** C1 (code defect).  In the first iteration on [A = ((3,4),(4,0))],
    [b = (1,0)], [x0 = 0] with the identity preconditioner,
    [r1_hat = 3], [beta_new = 4] and [r1 = 5]; the code sets the new sine to
    [beta / r1 = 1/5] (with [beta = 1], the previous [beta_new]) and not to
    [beta_new / r1 = 4/5]. *)
Lemma minres_new_sine_uses_beta :
  let st1 := fst (fst (minres_body mat3 precond_id rhs3 0
                         (fst (minres_init mat3 precond_id rhs3 x03 g0_3)))) in
  beta st1 = 1 /\ beta_new st1 = 4 /\ c st1 = 3 / 5 /\
  s st1 = beta st1 / 5 /\ s st1 <> beta_new st1 / 5.
Proof.
  cbv zeta; destruct (first_iteration_3 0) as (Hb & Hbn & Hc & Hs & _).
  rewrite Hb, Hbn, Hc, Hs; repeat split; lra.
Qed.

(** C2 (code defect).  On the same input the rotation computed in the first
    iteration has [c^2 + s^2 = (3/5)^2 + (1/5)^2 = 2/5], not 1. *)
Lemma minres_rotation_not_unit :
  let st1 := fst (fst (minres_body mat3 precond_id rhs3 0
                         (fst (minres_init mat3 precond_id rhs3 x03 g0_3)))) in
  c st1 ^ 2 + s st1 ^ 2 = 2 / 5 /\ c st1 ^ 2 + s st1 ^ 2 <> 1.
Proof.
  cbv zeta; destruct (first_iteration_3 0) as (_ & _ & Hc & Hs & _).
  rewrite Hc, Hs; split; [field | lra].
Qed.

(** With a zero right-hand side the threshold [tol^2 * |b|^2] is 0, so the
    strict test [residualNorm2 < 0] never holds. *)
Lemma minres_zero_rhs_run mat precond N x0 k tol g :
  (0 <= k)%Z ->
  res_iters (fst (minres mat precond (vzero N) x0 k tol g)) = k /\
  snd (minres mat precond (vzero N) x0 k tol g) =
    [OpApply; PrecSolve] ++ concat (repeat body_trace (Z.to_nat k)).
Proof.
  intros Hk.
  pose proof (minres_fst mat precond (vzero N) x0 k tol g) as Hf.
  pose proof (minres_snd mat precond (vzero N) x0 k tol g) as Hs.
  cbv zeta in Hf, Hs; rewrite Hf, Hs; clear Hf Hs.
  set (st0 := fst (minres_init mat precond (vzero N) x0 g)).
  pose proof (minres_loop_no_break mat precond (vzero N)
                (tol * tol * squaredNorm (vzero N)) k (Z.to_nat k) st0) as L.
  rewrite squaredNorm_vzero in L |- *.
  assert (Hn0 : n st0 = 0%Z) by reflexivity.
  specialize (L ltac:(lra) ltac:(rewrite Hn0; lia) ltac:(rewrite Hn0; lia)).
  destruct (minres_loop mat precond (Z.to_nat k) (vzero N) (tol * tol * 0) k st0)
    as [st' tr]; cbn.
  destruct L as [-> ->]; split; reflexivity.
Qed.

(** C3 (corrected): with [b = 0] the kernel does not return early: the
    loop runs the whole budget [maxIters], applying [A] twice and the
    preconditioner once per iteration, and [iters] is set to [maxIters]. *)
Lemma minres_zero_rhs_full_budget mat precond N x0 k tol g :
  (0 <= k)%Z ->
  res_iters (fst (minres mat precond (vzero N) x0 k tol g)) = k /\
  snd (minres mat precond (vzero N) x0 k tol g) =
    [OpApply; PrecSolve] ++ concat (repeat body_trace (Z.to_nat k)).
Proof. apply minres_zero_rhs_run. Qed.

(** C3 counterexample: [b = (0,0)], [x0 = (0,0)], [maxIters = 1]: one
    iteration is performed and [iters] is set to 1, not 0. *)
Lemma minres_zero_rhs_counts_iterations :
  res_iters (fst (minres mat3 precond_id [0; 0] [0; 0] 1 0 g0_3)) = 1%Z /\
  snd (minres mat3 precond_id [0; 0] [0; 0] 1 0 g0_3) =
    [OpApply; PrecSolve] ++ body_trace.
Proof.
  change [0; 0] with (vzero 2) at 1 3.
  destruct (minres_zero_rhs_run mat3 precond_id 2 [0; 0] 1 0 g0_3 ltac:(lia))
    as [H1 H2].
  split; [exact H1 | rewrite H2; reflexivity].
Qed.

(** C4 (corrected): one body execution applies [A] twice (to [w] in the
    Lanczos step and to [x] for the residual test) and solves with the
    preconditioner once. *)
Lemma minres_body_calls mat precond rhs thr st :
  count_ev OpApply (snd (minres_body mat precond rhs thr st)) = 2%nat /\
  count_ev PrecSolve (snd (minres_body mat precond rhs thr st)) = 1%nat.
Proof. rewrite minres_body_trace; split; reflexivity. Qed.

(** C4 counterexample: in the first iteration on the concrete problem the
    operator is applied twice, not once. *)
Lemma minres_body_applies_A_twice :
  count_ev OpApply (snd (minres_body mat3 precond_id rhs3 0
                           (fst (minres_init mat3 precond_id rhs3 x03 g0_3)))) <> 1%nat.
Proof. rewrite minres_body_trace; cbn; discriminate. Qed.

(** C5 (corrected): for [maxIters = k >= 0] the body runs [B <= k] times
    and [iters] is set to [B], or to [B - 1] when the last execution left
    the loop through the convergence [break]; in all cases [0 <= iters <= k]. *)
Lemma minres_iteration_budget mat precond rhs x0 k tol g :
  (0 <= k)%Z ->
  let st0 := fst (minres_init mat precond rhs x0 g) in
  let thr := tol * tol * squaredNorm rhs in
  exists B : nat,
    snd (minres mat precond rhs x0 k tol g) =
      [OpApply; PrecSolve] ++ concat (repeat body_trace B) /\
    (Z.of_nat B <= k)%Z /\
    (0 <= res_iters (fst (minres mat precond rhs x0 k tol g)) <= k)%Z /\
    res_x (fst (minres mat precond rhs x0 k tol g)) =
      x (body_iter mat precond rhs thr B st0) /\
    ((* the loop leaves through the break in body B *)
     (exists j, B = S j /\
        (forall i, (i < j)%nat ->
           body_breaks mat precond rhs thr (body_iter mat precond rhs thr i st0) = false) /\
        body_breaks mat precond rhs thr (body_iter mat precond rhs thr j st0) = true /\
        res_iters (fst (minres mat precond rhs x0 k tol g)) = (Z.of_nat B - 1)%Z) \/
     (* the loop leaves through the guard, no body having taken the break *)
     ((forall i, (i < B)%nat ->
         body_breaks mat precond rhs thr (body_iter mat precond rhs thr i st0) = false) /\
      Z.of_nat B = k /\
      res_iters (fst (minres mat precond rhs x0 k tol g)) = Z.of_nat B)).
Proof.
  intros Hk.
  pose proof (minres_fst mat precond rhs x0 k tol g) as Hf.
  pose proof (minres_snd mat precond rhs x0 k tol g) as Hs.
  cbv zeta in Hf, Hs |- *; rewrite Hf, Hs; clear Hf Hs.
  set (st0 := fst (minres_init mat precond rhs x0 g)).
  assert (Hn0 : n st0 = 0%Z) by reflexivity.
  pose proof (minres_loop_exit_kind mat precond rhs (tol * tol * squaredNorm rhs) k
                (Z.to_nat k) st0 ltac:(rewrite Hn0; lia) ltac:(rewrite Hn0; lia)) as L.
  destruct (minres_loop mat precond (Z.to_nat k) rhs (tol * tol * squaredNorm rhs) k st0)
    as [st' tr]; cbn [fst snd res_x res_iters].
  rewrite Hn0 in L.
  destruct L as (B & -> & HB & -> & Hx); exists B.
  split; [reflexivity|]. split; [lia|].
  destruct Hx as [(j & -> & Hpre & Hj & Hn) | (Hpre & HBk & Hn)].
  - split; [lia|]. split; [reflexivity|].
    left; exists j; split; [reflexivity|]. split; [exact Hpre|]. split; [exact Hj | lia].
  - split; [lia|]. split; [reflexivity|].
    right; split; [exact Hpre | lia].
Qed.

(** C5 counterexample: on the concrete problem with [tol = 1] and
    [maxIters = 1], the body runs once and leaves through [break]
    ([residualNorm2 = 16/25 < 1]); [iters] is set to 0, not 1. *)
Lemma minres_converged_iteration_uncounted :
  snd (minres mat3 precond_id rhs3 x03 1 1 g0_3) = [OpApply; PrecSolve] ++ body_trace /\
  res_iters (fst (minres mat3 precond_id rhs3 x03 1 1 g0_3)) = 0%Z.
Proof.
  unfold minres; cbv zeta; change (Z.to_nat 1) with 1%nat.
  cbn -[minres_body minres_init]; run_concrete.
  destruct (Rlt_dec _ _) as [H|H]; cbn; [split; reflexivity | exfalso; apply H; lra].
Qed.

(** C6: each body execution decides termination on the recomputed squared
    residual [|A x - b|^2] of the updated [x], against
    [tol^2 * |b|^2] (the [threshold2] of [minres]); on [break] [n] is not
    advanced, otherwise it grows by one.  The estimate [norm_rMR] does not
    take part: running the body from a state that differs only in
    [norm_rMR] gives the same state (up to [norm_rMR]) and the same
    decision. *)
Lemma minres_termination_test mat precond rhs tol st :
  let thr := tol * tol * squaredNorm rhs in
  let '(st', brk) := fst (minres_body mat precond rhs thr st) in
  residualNorm2 st' = squaredNorm (vsub (mat (x st')) rhs) /\
  (brk = true <-> squaredNorm (vsub (mat (x st')) rhs) < thr) /\
  n st' = (if brk then n st else (n st + 1)%Z) /\
  (forall m, fst (minres_body mat precond rhs thr (with_norm_rMR m st)) =
             (with_norm_rMR (m * Rabs (s st')) st', brk)).
Proof.
  cbv zeta.
  unfold minres_body, bind, mat_mul, precond_solve, ret, with_norm_rMR; cbn.
  destruct (Rlt_dec _ _) as [H|H]; cbn;
    repeat split; intros; solve [reflexivity | assumption | discriminate | contradiction].
Qed.

(** C7 (code defect).  Before the loop [p_oold = p_old = 0], [c = c_old = 1],
    [s = s_old = 0] and [eta = 1], but [p] holds the indeterminate contents
    of the uninitialised [VectorType p(N)].  The first iteration reads it
    ([p_old = p]) with the coefficient [r2 = beta = 1] on the concrete
    problem, so [x] after one iteration depends on it: [(3/25, 0)] when the
    memory holds [(0,0)], [(0,0)] when it holds [(1,0)]. *)
Lemma minres_p_uninitialised :
  (forall mat precond rhs x0 g,
     let st0 := fst (minres_init mat precond rhs x0 g) in
     p_oold st0 = vzero (length x0) /\ p_old st0 = vzero (length x0) /\
     c st0 = 1 /\ c_old st0 = 1 /\ s st0 = 0 /\ s_old st0 = 0 /\ eta st0 = 1 /\
     p st0 = g_p g) /\
  x (fst (fst (minres_body mat3 precond_id rhs3 0
                 (fst (minres_init mat3 precond_id rhs3 x03 g0_3))))) = [3 / 25; 0] /\
  x (fst (fst (minres_body mat3 precond_id rhs3 0
                 (fst (minres_init mat3 precond_id rhs3 x03 g1_3))))) = [0; 0].
Proof.
  split; [intros; repeat split|].
  split; [apply (first_iteration_3 0)|].
  run_concrete; destruct (Rlt_dec _ _); cbn; vec_eq; field.
Qed.

(** For a budget of at least one iteration, the returned error is the
    relative residual of the returned [x]. *)
Lemma minres_error_matches_residual mat precond rhs x0 k tol g :
  (1 <= k)%Z ->
  res_tol_error (fst (minres mat precond rhs x0 k tol g)) =
  sqrt (squaredNorm (vsub (mat (res_x (fst (minres mat precond rhs x0 k tol g)))) rhs)
        / squaredNorm rhs).
Proof.
  intros Hk.
  pose proof (minres_fst mat precond rhs x0 k tol g) as Hf.
  cbv zeta in Hf; rewrite Hf; clear Hf; cbn [res_tol_error res_x].
  set (st0 := fst (minres_init mat precond rhs x0 g)).
  assert (Hn0 : n st0 = 0%Z) by reflexivity.
  rewrite (minres_loop_residual mat precond rhs (tol * tol * squaredNorm rhs) k
             (Z.to_nat k) st0 ltac:(left; split; [lia | rewrite Hn0; lia])).
  reflexivity.
Qed.

(** C8 (code defect).  With [maxIters = 0] on the concrete problem, the
    returned error is computed from the never-assigned [residualNorm2]
    (here holding 0): it is 0, while the relative residual of the returned
    [x = x0] is [sqrt (|A x0 - b|^2 / |b|^2) = 1]. *)
Lemma minres_zero_budget_error_wrong :
  res_tol_error (fst (minres mat3 precond_id rhs3 x03 0 0 g0_3)) = 0 /\
  sqrt (squaredNorm (vsub (mat3 (res_x (fst (minres mat3 precond_id rhs3 x03 0 0 g0_3)))) rhs3)
        / squaredNorm rhs3) = 1.
Proof.
  unfold minres; cbv zeta; change (Z.to_nat 0) with 0%nat.
  cbn -[minres_init]; run_concrete; split; reflexivity.
Qed.

(** C9: with a budget of 0 the loop never runs ([x] and the trace are those
    of the initialisation, [iters = 0]) and the returned error is
    [sqrt (r / |b|^2)] for the indeterminate initial contents [r] of
    [residualNorm2]; for some contents it differs from the relative
    residual of the unchanged [x]. *)
Lemma minres_zero_budget_error_indeterminate mat precond rhs x0 tol g :
  0 < squaredNorm rhs ->
  (res_iters (fst (minres mat precond rhs x0 0 tol g)) = 0%Z /\
   res_x (fst (minres mat precond rhs x0 0 tol g)) = x0 /\
   snd (minres mat precond rhs x0 0 tol g) = [OpApply; PrecSolve] /\
   res_tol_error (fst (minres mat precond rhs x0 0 tol g)) =
     sqrt (g_residualNorm2 g / squaredNorm rhs)) /\
  exists g' : indet,
    res_tol_error (fst (minres mat precond rhs x0 0 tol g')) <>
    sqrt (squaredNorm (vsub (mat x0) rhs) / squaredNorm rhs).
Proof.
  intros Hb.
  split; [repeat split|].
  set (T := squaredNorm (vsub (mat x0) rhs)).
  exists (mkIndet [] [] 0 [] (T + squaredNorm rhs)); cbn.
  assert (HT : 0 <= T) by apply squaredNorm_nonneg.
  intro E. apply sqrt_inj in E.
  - unfold Rdiv in E; apply Rmult_eq_reg_r in E; [lra|].
    apply Rinv_neq_0_compat; lra.
  - unfold Rdiv; apply Rmult_le_pos; [lra | left; apply Rinv_0_lt_compat; lra].
  - unfold Rdiv; apply Rmult_le_pos; [lra | left; apply Rinv_0_lt_compat; lra].
Qed.

Lemma minres_zero_budget_error_indeterminate_witness :
  0 < squaredNorm rhs3 /\
  ((res_iters (fst (minres mat3 precond_id rhs3 x03 0 0 g0_3)) = 0%Z /\
    res_x (fst (minres mat3 precond_id rhs3 x03 0 0 g0_3)) = x03 /\
    snd (minres mat3 precond_id rhs3 x03 0 0 g0_3) = [OpApply; PrecSolve] /\
    res_tol_error (fst (minres mat3 precond_id rhs3 x03 0 0 g0_3)) =
      sqrt (g_residualNorm2 g0_3 / squaredNorm rhs3)) /\
   exists g' : indet,
     res_tol_error (fst (minres mat3 precond_id rhs3 x03 0 0 g')) <>
     sqrt (squaredNorm (vsub (mat3 x03) rhs3) / squaredNorm rhs3)).
Proof.
  assert (H : 0 < squaredNorm rhs3) by (unfold squaredNorm, dot, rhs3; cbn; lra).
  split; [exact H | exact (minres_zero_budget_error_indeterminate mat3 precond_id rhs3 x03 0 g0_3 H)].
Defined.

(** C10: [_solve] hands the kernel, for every column [j] of the right-hand
    side, the initial guess made of ones (of the length of column [j] of
    the destination): the [j]-th solution column is the kernel's output on
    that guess. *)
Lemma solve_initial_guess_ones kernel mi tol b x j bj xj :
  nth_error b j = Some bj -> nth_error x j = Some xj ->
  nth_error (fst (fst (fst (_solve kernel mi tol b x)))) j =
  Some (fst (fst (kernel bj (repeat 1 (length xj)) mi tol))).
Proof.
  intros Hb Hx.
  unfold _solve, _solveWithGuess.
  pose proof (solve_columns_nth kernel mi tol b (setOnes x) mi tol j bj
                (map (fun _ => 1) xj) Hb) as H.
  rewrite <- map_const_repeat.
  destruct (solve_columns kernel mi tol b (setOnes x) mi tol) as [[x' it] err]; cbn in H |- *.
  apply H. unfold setOnes, vec in *; rewrite nth_error_map, Hx; reflexivity.
Qed.

Lemma solve_initial_guess_ones_witness :
  nth_error [[2; 3]] 0 = Some [2; 3] /\ nth_error [[7; 8]] 0 = Some [7; 8] /\
  nth_error (fst (fst (fst (_solve echo_kernel 5 0 [[2; 3]] [[7; 8]])))) 0 =
  Some (fst (fst (echo_kernel [2; 3] (repeat 1 (length [7; 8])) 5 0))).
Proof.
  split; [reflexivity | split; [reflexivity|]].
  apply (solve_initial_guess_ones echo_kernel 5 0 [[2; 3]] [[7; 8]] 0 [2; 3] [7; 8]);
    reflexivity.
Defined.

(** Witness for [minres_iteration_budget] (C5): the concrete problem with
    [maxIters = 3]. *)
Lemma minres_iteration_budget_witness :
  (0 <= 3)%Z /\
  let st0 := fst (minres_init mat3 precond_id rhs3 x03 g0_3) in
  let thr := 0 * 0 * squaredNorm rhs3 in
  exists B : nat,
    snd (minres mat3 precond_id rhs3 x03 3 0 g0_3) =
      [OpApply; PrecSolve] ++ concat (repeat body_trace B) /\
    (Z.of_nat B <= 3)%Z /\
    (0 <= res_iters (fst (minres mat3 precond_id rhs3 x03 3 0 g0_3)) <= 3)%Z /\
    res_x (fst (minres mat3 precond_id rhs3 x03 3 0 g0_3)) =
      x (body_iter mat3 precond_id rhs3 thr B st0) /\
    ((exists j, B = S j /\
        (forall i, (i < j)%nat ->
           body_breaks mat3 precond_id rhs3 thr (body_iter mat3 precond_id rhs3 thr i st0) = false) /\
        body_breaks mat3 precond_id rhs3 thr (body_iter mat3 precond_id rhs3 thr j st0) = true /\
        res_iters (fst (minres mat3 precond_id rhs3 x03 3 0 g0_3)) = (Z.of_nat B - 1)%Z) \/
     ((forall i, (i < B)%nat ->
         body_breaks mat3 precond_id rhs3 thr (body_iter mat3 precond_id rhs3 thr i st0) = false) /\
      Z.of_nat B = 3%Z /\
      res_iters (fst (minres mat3 precond_id rhs3 x03 3 0 g0_3)) = Z.of_nat B)).
Proof.
  split; [lia | exact (minres_iteration_budget mat3 precond_id rhs3 x03 3 0 g0_3 ltac:(lia))].
Defined.

(** Witness for [minres_zero_rhs_full_budget] (C3). *)
Lemma minres_zero_rhs_full_budget_witness :
  (0 <= 2)%Z /\
  res_iters (fst (minres mat3 precond_id (vzero 2) [1; 1] 2 0 g0_3)) = 2%Z /\
  snd (minres mat3 precond_id (vzero 2) [1; 1] 2 0 g0_3) =
    [OpApply; PrecSolve] ++ concat (repeat body_trace (Z.to_nat 2)).
Proof.
  split; [lia | apply (minres_zero_rhs_full_budget mat3 precond_id 2 [1; 1] 2 0 g0_3); lia].
Defined.

(** ** Further properties of the kernel and the wrapper *)

Lemma dot_vdiv_l (a b : vec) (k : R) : dot (vdiv a k) b = dot a b / k.
Proof.
  unfold dot, vdiv; revert b; induction a as [|t a IH]; intros [|u b]; cbn;
    unfold Rdiv; try ring.
  rewrite IH; unfold Rdiv; ring.
Qed.

Lemma dot_vdiv_vdiv (a b : vec) (k : R) : k <> 0 ->
  dot (vdiv a k) (vdiv b k) = dot a b / (k * k).
Proof.
  intros Hk; unfold dot, vdiv; revert b; induction a as [|t a IH]; intros [|u b];
    cbn; try (field; exact Hk).
  rewrite IH; field; exact Hk.
Qed.

Lemma dot_vscale_l (a b : vec) (k : R) : dot (vscale k a) b = k * dot a b.
Proof.
  unfold dot, vscale; revert b; induction a as [|t a IH]; intros [|u b]; cbn; try ring.
  rewrite IH; ring.
Qed.

Lemma dot_vsub_l (a a' b : vec) : length a = length a' ->
  dot (vsub a a') b = dot a b - dot a' b.
Proof.
  unfold dot, vsub; revert a' b; induction a as [|t a IH];
    intros [|t' a'] [|u b] Hl; cbn in Hl |- *; try discriminate; try ring.
  injection Hl as Hl. rewrite (IH a' b Hl); ring.
Qed.

Lemma length_vsub (a b : vec) : length (vsub a b) = Nat.min (length a) (length b).
Proof. unfold vsub; rewrite length_map, length_combine; reflexivity. Qed.

Lemma length_vscale (k : R) (a : vec) : length (vscale k a) = length a.
Proof. unfold vscale; apply length_map. Qed.

Lemma sqrt_pos_sq (D : R) : 0 < sqrt D -> sqrt D * sqrt D = D.
Proof.
  intros H; destruct (Rle_dec 0 D) as [HD|HD].
  - apply sqrt_sqrt; exact HD.
  - rewrite sqrt_neg_0 in H; lra.
Qed.

(** Lines 60-64: unless [beta_new] is 0 (zero initial residual, or an
    indefinite preconditioner), the initial Lanczos pair is normalised:
    [<v_new, w_new> = 1]. *)
Lemma minres_init_normalised mat precond rhs x0 g :
  0 < beta_new (fst (minres_init mat precond rhs x0 g)) ->
  dot (v_new (fst (minres_init mat precond rhs x0 g)))
      (w_new (fst (minres_init mat precond rhs x0 g))) = 1.
Proof.
  unfold minres_init, bind, mat_mul, precond_solve, ret; cbn [fst snd v_new w_new beta_new].
  intros Hb. rewrite dot_vdiv_vdiv by (intro E; rewrite E in Hb; lra). rewrite sqrt_pos_sq by exact Hb.
  apply Rdiv_diag. intro E. rewrite E, sqrt_0 in Hb. lra.
Qed.

Lemma minres_init_normalised_witness :
  0 < beta_new (fst (minres_init mat3 precond_id rhs3 x03 g0_3)) /\
  dot (v_new (fst (minres_init mat3 precond_id rhs3 x03 g0_3)))
      (w_new (fst (minres_init mat3 precond_id rhs3 x03 g0_3))) = 1.
Proof.
  assert (H : 0 < beta_new (fst (minres_init mat3 precond_id rhs3 x03 g0_3)))
    by (run_concrete; lra).
  split; [exact H | apply (minres_init_normalised mat3 precond_id rhs3 x03 g0_3 H)].
Defined.

(** Lines 107-110: every iteration renormalises the new Lanczos pair:
    [<v_new, w_new> = 1] whenever the new [beta_new] is positive. *)
Lemma minres_body_normalised mat precond rhs thr st :
  0 < beta_new (fst (fst (minres_body mat precond rhs thr st))) ->
  dot (v_new (fst (fst (minres_body mat precond rhs thr st))))
      (w_new (fst (fst (minres_body mat precond rhs thr st)))) = 1.
Proof.
  unfold minres_body, bind, mat_mul, precond_solve, ret.
  destruct (Rlt_dec _ _); cbn [fst snd v_new w_new beta_new]; intros Hb;
    (rewrite dot_vdiv_vdiv by (intro E; rewrite E in Hb; lra); rewrite sqrt_pos_sq by exact Hb;
     apply Rdiv_diag; intro E; rewrite E, sqrt_0 in Hb; lra).
Qed.

Lemma minres_body_normalised_witness :
  0 < beta_new (fst (fst (minres_body mat3 precond_id rhs3 0
                            (fst (minres_init mat3 precond_id rhs3 x03 g0_3))))) /\
  dot (v_new (fst (fst (minres_body mat3 precond_id rhs3 0
                          (fst (minres_init mat3 precond_id rhs3 x03 g0_3))))))
      (w_new (fst (fst (minres_body mat3 precond_id rhs3 0
                          (fst (minres_init mat3 precond_id rhs3 x03 g0_3)))))) = 1.
Proof.
  assert (H : 0 < beta_new (fst (fst (minres_body mat3 precond_id rhs3 0
                            (fst (minres_init mat3 precond_id rhs3 x03 g0_3))))))
    by (run_concrete; destruct (Rlt_dec _ _); cbn; lra).
  split; [exact H | apply (minres_body_normalised mat3 precond_id rhs3 0 _ H)].
Defined.

(** Lines 104-106: the new Lanczos vector is made orthogonal to the
    previous preconditioned vector [w]: if the incoming pair is normalised
    and the vectors have matching lengths, [<v_new, w> = 0] after the body
    (as long as [beta_new] does not vanish). *)
Lemma minres_body_orthogonal mat precond rhs thr st :
  length (mat (w_new st)) = length (v_new st) ->
  length (v st) = length (v_new st) ->
  dot (v_new st) (w_new st) = 1 ->
  beta_new (fst (fst (minres_body mat precond rhs thr st))) <> 0 ->
  dot (v_new (fst (fst (minres_body mat precond rhs thr st))))
      (w (fst (fst (minres_body mat precond rhs thr st)))) = 0.
Proof.
  intros Hl1 Hl2 Hd.
  unfold minres_body, bind, mat_mul, precond_solve, ret.
  destruct (Rlt_dec _ _); cbn [fst snd v_new w beta_new]; intros Hb;
    (rewrite dot_vdiv_l, dot_vsub_l, dot_vscale_l, Hd;
     [unfold Rdiv; ring
     | rewrite length_vscale, length_vsub, length_vscale; lia]).
Qed.

Lemma minres_body_orthogonal_witness :
  let st0 := fst (minres_init mat3 precond_id rhs3 x03 g0_3) in
  length (mat3 (w_new st0)) = length (v_new st0) /\
  length (v st0) = length (v_new st0) /\
  dot (v_new st0) (w_new st0) = 1 /\
  beta_new (fst (fst (minres_body mat3 precond_id rhs3 0 st0))) <> 0 /\
  dot (v_new (fst (fst (minres_body mat3 precond_id rhs3 0 st0))))
      (w (fst (fst (minres_body mat3 precond_id rhs3 0 st0)))) = 0.
Proof.
  intros st0.
  assert (H1 : length (mat3 (w_new st0)) = length (v_new st0)) by reflexivity.
  assert (H2 : length (v st0) = length (v_new st0)) by reflexivity.
  assert (H3 : dot (v_new st0) (w_new st0) = 1)
    by (unfold st0; run_concrete; field).
  assert (H4 : beta_new (fst (fst (minres_body mat3 precond_id rhs3 0 st0))) <> 0)
    by (unfold st0; run_concrete; destruct (Rlt_dec _ _); cbn; lra).
  split; [exact H1|]. split; [exact H2|]. split; [exact H3|]. split; [exact H4|].
  exact (minres_body_orthogonal mat3 precond_id rhs3 0 st0 H1 H2 H3 H4).
Defined.

(** Lines 140-145: when the new [beta_new] is positive, the new cosine
    [c = r1_hat / r1] lies strictly between -1 and 1. *)
Lemma minres_body_cosine_bound mat precond rhs thr st :
  0 < beta_new (fst (fst (minres_body mat precond rhs thr st))) ->
  -1 < c (fst (fst (minres_body mat precond rhs thr st))) < 1.
Proof.
  pose proof (minres_body_spec mat precond rhs thr st) as Hs; cbv zeta in Hs.
  destruct (fst (minres_body mat precond rhs thr st)) as [st' brk]; cbn [fst].
  destruct Hs as (_ & -> & -> & _).
  set (b := sqrt _). set (h := _ - _). intros Hb.
  set (D := h ^ 2 + b ^ 2).
  assert (HS : 0 < sqrt D) by (apply sqrt_lt_R0; unfold D; nra).
  pose proof (sqrt_pos_sq D HS) as HSS.
  assert (Hq : h = h / sqrt D * sqrt D) by (field; lra).
  set (q := h / sqrt D) in *. set (S := sqrt D) in *.
  unfold D in HSS.
  assert (HS2 : 0 < S * S) by nra.
  assert (Hqq : (1 - q * q) * (S * S) > 0).
  { replace ((1 - q * q) * (S * S)) with (S * S - (q * S) * (q * S)) by ring.
    rewrite <- Hq, HSS. nra. }
  assert (Hq1 : q * q < 1).
  { destruct (Rlt_dec (q * q) 1) as [H|H]; [exact H|].
    exfalso. assert (0 <= q * q - 1) by lra. nra. }
  split; nra.
Qed.

Lemma minres_body_cosine_bound_witness :
  0 < beta_new (fst (fst (minres_body mat3 precond_id rhs3 0
                            (fst (minres_init mat3 precond_id rhs3 x03 g0_3))))) /\
  -1 < c (fst (fst (minres_body mat3 precond_id rhs3 0
                      (fst (minres_init mat3 precond_id rhs3 x03 g0_3))))) < 1.
Proof.
  assert (H : 0 < beta_new (fst (fst (minres_body mat3 precond_id rhs3 0
                            (fst (minres_init mat3 precond_id rhs3 x03 g0_3))))))
    by (run_concrete; destruct (Rlt_dec _ _); cbn; lra).
  split; [exact H | exact (minres_body_cosine_bound mat3 precond_id rhs3 0 _ H)].
Defined.

(** How the loop ends when it runs at least once: either through the
    [break] with [n] still below [maxIters] and [residualNorm2] below the
    threshold, or through the guard with [n = maxIters] and [residualNorm2]
    not below the threshold. *)
Lemma minres_loop_exit mat precond rhs thr k : forall fuel st,
  Z.of_nat fuel = (k - n st)%Z -> (n st < k)%Z ->
  let st' := fst (minres_loop mat precond fuel rhs thr k st) in
  (n st' < k)%Z /\ residualNorm2 st' < thr \/ n st' = k /\ thr <= residualNorm2 st'.
Proof.
  induction fuel as [|f IH]; intros st Hf Hk; [lia|]. cbn [minres_loop].
  replace (Z.ltb (n st) k) with true by (symmetry; apply Z.ltb_lt; lia).
  pose proof (minres_body_spec mat precond rhs thr st) as Hs.
  destruct (minres_body mat precond rhs thr st) as [[st1 brk] tr1]; cbn in Hs |- *.
  destruct Hs as (_ & _ & _ & _ & _ & _ & _ & Hb & Hn).
  destruct brk.
  - left; cbn; split; [lia | apply Hb; reflexivity].
  - destruct (Z.lt_ge_cases (n st1) k) as [Hlt|Hge].
    + specialize (IH st1 ltac:(lia) Hlt); cbn in IH.
      destruct (minres_loop mat precond f rhs thr k st1); exact IH.
    + assert (f = 0%nat) by lia; subst f; cbn.
      right; split; [lia|].
      destruct (Rlt_dec (residualNorm2 st1) thr) as [H|H];
        [discriminate (proj2 Hb H) | lra].
Qed.

Lemma minres_run_exit mat precond rhs x0 k tol g : (1 <= k)%Z ->
  let r := fst (minres mat precond rhs x0 k tol g) in
  let thr := tol * tol * squaredNorm rhs in
  let e2 := squaredNorm (vsub (mat (res_x r)) rhs) in
  res_tol_error r = sqrt (e2 / squaredNorm rhs) /\
  ((res_iters r < k)%Z /\ e2 < thr \/ res_iters r = k /\ thr <= e2).
Proof.
  intros Hk. pose proof (minres_fst mat precond rhs x0 k tol g) as E; cbv zeta in E |- *.
  rewrite E; cbn [res_x res_iters res_tol_error].
  set (st0 := fst (minres_init mat precond rhs x0 g)).
  assert (Hf : Z.of_nat (Z.to_nat k) = (k - n st0)%Z) by (cbn; lia).
  pose proof (minres_loop_exit mat precond rhs (tol * tol * squaredNorm rhs) k
                (Z.to_nat k) st0 Hf ltac:(cbn; lia)) as Hx.
  pose proof (minres_loop_residual mat precond rhs (tol * tol * squaredNorm rhs) k
                (Z.to_nat k) st0) as Hr.
  assert (Hpre : (1 <= Z.to_nat k)%nat /\ (n st0 < k)%Z) by (cbn; lia).
  specialize (Hr (or_introl Hpre)).
  cbv zeta in Hx, Hr. rewrite <- Hr. split; [reflexivity | exact Hx].
Qed.

(** Lines 154-166: with an iteration budget [k >= 1], the returned
    iteration count is below [k] exactly when the returned [x] passes the
    test [||A x - b||^2 < tol^2 ||b||^2]; otherwise it equals [k]. *)
Lemma minres_converged_iff mat precond rhs x0 k tol g : (1 <= k)%Z ->
  (res_iters (fst (minres mat precond rhs x0 k tol g)) < k)%Z <->
  squaredNorm (vsub (mat (res_x (fst (minres mat precond rhs x0 k tol g)))) rhs)
    < tol * tol * squaredNorm rhs.
Proof.
  intros Hk. pose proof (minres_run_exit mat precond rhs x0 k tol g Hk) as H.
  cbv zeta in H. destruct H as [_ [[H1 H2] | [H1 H2]]]; split; intros; try lra; try lia.
Qed.

Lemma minres_converged_iff_witness :
  (1 <= 1)%Z /\
  ((res_iters (fst (minres mat3 precond_id rhs3 x03 1 1 g0_3)) < 1)%Z <->
   squaredNorm (vsub (mat3 (res_x (fst (minres mat3 precond_id rhs3 x03 1 1 g0_3)))) rhs3)
     < 1 * 1 * squaredNorm rhs3).
Proof. split; [lia | exact (minres_converged_iff mat3 precond_id rhs3 x03 1 1 g0_3 ltac:(lia))]. Defined.

Lemma minres_run_error_iff mat precond rhs x0 k tol g :
  (1 <= k)%Z -> 0 < squaredNorm rhs -> 0 <= tol ->
  (res_iters (fst (minres mat precond rhs x0 k tol g)) < k)%Z <->
  res_tol_error (fst (minres mat precond rhs x0 k tol g)) < tol.
Proof.
  intros Hk Hb Ht. pose proof (minres_run_exit mat precond rhs x0 k tol g Hk) as H.
  cbv zeta in H. destruct H as [-> Hx].
  set (e2 := squaredNorm (vsub _ rhs)) in *.
  assert (He : 0 <= e2) by apply squaredNorm_nonneg.
  assert (Hq : 0 <= e2 / squaredNorm rhs)
    by (unfold Rdiv; apply Rmult_le_pos; [lra | left; apply Rinv_0_lt_compat; lra]).
  assert (Ht2 : sqrt (tol * tol) = tol) by (apply sqrt_square; exact Ht).
  assert (Hlt : e2 < tol * tol * squaredNorm rhs <-> e2 / squaredNorm rhs < tol * tol).
  { split; intros H.
    - apply (Rmult_lt_reg_r (squaredNorm rhs)); [exact Hb|].
      unfold Rdiv; rewrite Rmult_assoc, Rinv_l, Rmult_1_r; lra.
    - apply (Rmult_lt_compat_r (squaredNorm rhs)) in H; [|exact Hb].
      unfold Rdiv in H; rewrite Rmult_assoc, Rinv_l, Rmult_1_r in H; lra. }
  destruct Hx as [[H1 H2] | [H1 H2]]; split; intros H; try lia.
  - rewrite <- Ht2. apply sqrt_lt_1_alt. split; [exact Hq | apply Hlt, H2].
  - exfalso.
    assert (Hge : tol * tol <= e2 / squaredNorm rhs).
    { destruct (Rlt_dec (e2 / squaredNorm rhs) (tol * tol)) as [Hc|Hc]; [|lra].
      apply Hlt in Hc; lra. }
    apply sqrt_le_1_alt in Hge. rewrite Ht2 in Hge. lra.
Qed.

(** Lines 154-166: for a nonzero right-hand side, a nonnegative tolerance
    and a budget [k >= 1], the reported error is below [tol] exactly when
    fewer than [k] iterations are reported. *)
Lemma minres_error_below_tol_iff mat precond rhs x0 k tol g :
  (1 <= k)%Z -> 0 < squaredNorm rhs -> 0 <= tol ->
  (res_iters (fst (minres mat precond rhs x0 k tol g)) < k)%Z <->
  res_tol_error (fst (minres mat precond rhs x0 k tol g)) < tol.
Proof. exact (minres_run_error_iff mat precond rhs x0 k tol g). Qed.

Lemma minres_error_below_tol_iff_witness :
  (1 <= 1)%Z /\ 0 < squaredNorm rhs3 /\ 0 <= 1 /\
  ((res_iters (fst (minres mat3 precond_id rhs3 x03 1 1 g0_3)) < 1)%Z <->
   res_tol_error (fst (minres mat3 precond_id rhs3 x03 1 1 g0_3)) < 1).
Proof.
  assert (Hb : 0 < squaredNorm rhs3) by (unfold squaredNorm, dot, rhs3; cbn; lra).
  split; [lia|]. split; [exact Hb|]. split; [lra|].
  exact (minres_error_below_tol_iff mat3 precond_id rhs3 x03 1 1 g0_3 ltac:(lia) Hb ltac:(lra)).
Defined.

(** Lines 41 and 87: a budget [iters <= 0] (negative included) skips the
    loop: [x] is returned unchanged, the iteration count becomes 0 (not the
    negative input), and only the initial [A x0] and preconditioner solve
    are performed. *)
Lemma minres_nonpositive_budget mat precond rhs x0 k tol g : (k <= 0)%Z ->
  res_iters (fst (minres mat precond rhs x0 k tol g)) = 0%Z /\
  res_x (fst (minres mat precond rhs x0 k tol g)) = x0 /\
  snd (minres mat precond rhs x0 k tol g) = [OpApply; PrecSolve].
Proof.
  intros Hk.
  pose proof (minres_fst mat precond rhs x0 k tol g) as E1.
  pose proof (minres_snd mat precond rhs x0 k tol g) as E2.
  cbv zeta in E1, E2. rewrite E1, E2.
  replace (Z.to_nat k) with 0%nat by lia. cbn. repeat split.
Qed.

Lemma minres_nonpositive_budget_witness :
  (-3 <= 0)%Z /\
  res_iters (fst (minres mat3 precond_id rhs3 x03 (-3) 1 g0_3)) = 0%Z /\
  res_x (fst (minres mat3 precond_id rhs3 x03 (-3) 1 g0_3)) = x03 /\
  snd (minres mat3 precond_id rhs3 x03 (-3) 1 g0_3) = [OpApply; PrecSolve].
Proof. split; [lia | exact (minres_nonpositive_budget mat3 precond_id rhs3 x03 (-3) 1 g0_3 ltac:(lia))]. Defined.

Lemma minres_body_core mat precond rhs thr st1 st2 : core st1 = core st2 ->
  core (fst (fst (minres_body mat precond rhs thr st1))) =
  core (fst (fst (minres_body mat precond rhs thr st2))) /\
  snd (fst (minres_body mat precond rhs thr st1)) =
  snd (fst (minres_body mat precond rhs thr st2)) /\
  snd (minres_body mat precond rhs thr st1) = snd (minres_body mat precond rhs thr st2).
Proof.
  destruct st1, st2; unfold core; cbn [x v v_new w_new beta_new c c_old s s_old p_old p
                                          eta residualNorm2 n].
  intros H; injection H as; subst.
  unfold minres_body, bind, mat_mul, precond_solve, ret; cbn.
  destruct (Rlt_dec _ _); repeat split.
Qed.

Lemma minres_loop_core mat precond rhs thr k : forall fuel st1 st2, core st1 = core st2 ->
  core (fst (minres_loop mat precond fuel rhs thr k st1)) =
  core (fst (minres_loop mat precond fuel rhs thr k st2)) /\
  snd (minres_loop mat precond fuel rhs thr k st1) =
  snd (minres_loop mat precond fuel rhs thr k st2).
Proof.
  induction fuel as [|f IH]; intros st1 st2 H; cbn [minres_loop]; [split; [exact H | reflexivity]|].
  assert (Hn : n st1 = n st2) by (unfold core in H; congruence).
  rewrite Hn. destruct (Z.ltb (n st2) k); [|split; [exact H | reflexivity]].
  pose proof (minres_body_core mat precond rhs thr st1 st2 H) as (Hc & Hb & Ht).
  destruct (minres_body mat precond rhs thr st1) as [[a1 b1] t1].
  destruct (minres_body mat precond rhs thr st2) as [[a2 b2] t2].
  cbn in Hc, Hb, Ht |- *. subst b2 t2.
  destruct b1; cbn; [split; [exact Hc | reflexivity]|].
  specialize (IH a1 a2 Hc).
  destruct (minres_loop mat precond f rhs thr k a1) as [f1 u1].
  destruct (minres_loop mat precond f rhs thr k a2) as [f2 u2].
  cbn in IH |- *. destruct IH as [IH1 ->]; split; [exact IH1 | reflexivity].
Qed.

(** Lines 56-84: the indeterminate initial contents of [v_old], [w] and
    [beta] never influence the result: two runs whose uninitialised memory
    agrees on [p] and [residualNorm2] return the same [x], iteration count,
    error and sequence of operator/preconditioner calls. *)
Lemma minres_uninit_irrelevant mat precond rhs x0 k tol g g' :
  g_p g = g_p g' -> g_residualNorm2 g = g_residualNorm2 g' ->
  minres mat precond rhs x0 k tol g = minres mat precond rhs x0 k tol g'.
Proof.
  intros Hp Hr.
  rewrite (surjective_pairing (minres mat precond rhs x0 k tol g)),
          (surjective_pairing (minres mat precond rhs x0 k tol g')).
  pose proof (minres_fst mat precond rhs x0 k tol g) as F1.
  pose proof (minres_fst mat precond rhs x0 k tol g') as F2.
  pose proof (minres_snd mat precond rhs x0 k tol g) as S1.
  pose proof (minres_snd mat precond rhs x0 k tol g') as S2.
  cbv zeta in F1, F2, S1, S2. rewrite F1, F2, S1, S2.
  set (s1 := fst (minres_init mat precond rhs x0 g)).
  set (s2 := fst (minres_init mat precond rhs x0 g')).
  assert (H0 : core s1 = core s2).
  { unfold core, s1, s2; cbn; rewrite Hp, Hr; reflexivity. }
  pose proof (minres_loop_core mat precond rhs (tol * tol * squaredNorm rhs) k
                (Z.to_nat k) _ _ H0) as [Hc Ht].
  rewrite Ht. unfold core in Hc.
  clearbody s1 s2. injection Hc as Hx _ _ _ _ _ _ _ _ _ _ _ Hres Hn.
  rewrite Hx, Hres, Hn; reflexivity.
Qed.

Lemma minres_uninit_irrelevant_witness :
  g_p g0_3 = g_p (mkIndet [5; 5] [5; 5] 7 [0; 0] 0) /\
  g_residualNorm2 g0_3 = g_residualNorm2 (mkIndet [5; 5] [5; 5] 7 [0; 0] 0) /\
  minres mat3 precond_id rhs3 x03 2 1 g0_3 =
  minres mat3 precond_id rhs3 x03 2 1 (mkIndet [5; 5] [5; 5] 7 [0; 0] 0).
Proof.
  assert (H1 : g_p g0_3 = g_p (mkIndet [5; 5] [5; 5] 7 [0; 0] 0)) by reflexivity.
  assert (H2 : g_residualNorm2 g0_3 = g_residualNorm2 (mkIndet [5; 5] [5; 5] 7 [0; 0] 0))
    by reflexivity.
  split; [exact H1|]. split; [exact H2|].
  exact (minres_uninit_irrelevant mat3 precond_id rhs3 x03 2 1 _ _ H1 H2).
Defined.

(** Lines 295-309: with no right-hand-side column the kernel is never
    called; [x] is untouched, [iterations()] reports [maxIterations()],
    [error()] reports the tolerance and [info()] is [Success]. *)
Lemma solveWithGuess_no_columns kernel mi tol x :
  _solveWithGuess kernel mi tol [] x = (x, mi, tol, Success).
Proof.
  unfold _solveWithGuess; cbn.
  destruct (Rle_dec tol tol) as [_|H]; [reflexivity | exfalso; lra].
Qed.

Lemma solve_columns_last kernel mi tol : forall bs xs it err bl xl,
  length bs = length xs ->
  snd (fst (solve_columns kernel mi tol (bs ++ [bl]) (xs ++ [xl]) it err)) =
    snd (fst (kernel bl xl mi tol)) /\
  snd (solve_columns kernel mi tol (bs ++ [bl]) (xs ++ [xl]) it err) =
    snd (kernel bl xl mi tol).
Proof.
  induction bs as [|b0 bs IH]; intros [|x0 xs] it err bl xl Hl; cbn in Hl |- *;
    try discriminate.
  - destruct (kernel bl xl mi tol) as [[xj' it'] err']; cbn; split; reflexivity.
  - injection Hl as Hl.
    destruct (kernel b0 x0 mi tol) as [[xj' it'] err'].
    specialize (IH xs it' err' bl xl Hl).
    destruct (solve_columns kernel mi tol (bs ++ [bl]) (xs ++ [xl]) it' err')
      as [[rest it''] err'']; cbn in IH |- *; exact IH.
Qed.

(** Lines 299-309: [m_iterations] and [m_error] are reset for every column,
    so [iterations()], [error()] and [info()] after a multi-column solve
    are those of the last column alone; earlier columns that did not
    converge leave no trace in them. *)
Lemma solveWithGuess_last_column kernel mi tol bs xs bl xl :
  length bs = length xs ->
  let '(_, it, err, info) := _solveWithGuess kernel mi tol (bs ++ [bl]) (xs ++ [xl]) in
  it = snd (fst (kernel bl xl mi tol)) /\ err = snd (kernel bl xl mi tol) /\
  info = (if Rle_dec (snd (kernel bl xl mi tol)) tol then Success else NoConvergence).
Proof.
  intros Hl. pose proof (solve_columns_last kernel mi tol bs xs mi tol bl xl Hl) as [H1 H2].
  unfold _solveWithGuess.
  destruct (solve_columns kernel mi tol (bs ++ [bl]) (xs ++ [xl]) mi tol) as [[x' it] err].
  cbn in H1, H2. subst it err. repeat split.
Qed.

Lemma solveWithGuess_last_column_witness :
  length [rhs3] = length [x03] /\
  let '(_, it, err, info) :=
    _solveWithGuess echo_kernel 4 1 ([rhs3] ++ [rhs3]) ([x03] ++ [x03]) in
  it = snd (fst (echo_kernel rhs3 x03 4 1)) /\ err = snd (echo_kernel rhs3 x03 4 1) /\
  info = (if Rle_dec (snd (echo_kernel rhs3 x03 4 1)) 1 then Success else NoConvergence).
Proof.
  assert (H : length [rhs3] = length [x03]) by reflexivity.
  split; [exact H | exact (solveWithGuess_last_column echo_kernel 4 1 [rhs3] [x03] rhs3 x03 H)].
Defined.

(** Lines 298-309 with the kernel of lines 41-167: for a nonzero last
    column, a nonnegative tolerance and [maxIterations() >= 1], the solver
    reports [Success] whenever the last column stopped early, and reports
    [NoConvergence] only with [iterations() = maxIterations()]. *)
Lemma solveWithGuess_minres_info mat precond g mi tol bs xs bl xl :
  length bs = length xs -> (1 <= mi)%Z -> 0 < squaredNorm bl -> 0 <= tol ->
  let '(_, it, _, info) :=
    _solveWithGuess (minres_kernel mat precond g) mi tol (bs ++ [bl]) (xs ++ [xl]) in
  ((it < mi)%Z -> info = Success) /\ (info = NoConvergence -> it = mi).
Proof.
  intros Hl Hm Hb Ht.
  pose proof (solve_columns_last (minres_kernel mat precond g) mi tol bs xs mi tol bl xl Hl)
    as [H1 H2].
  pose proof (minres_run_exit mat precond bl xl mi tol g Hm) as Hx.
  pose proof (minres_run_error_iff mat precond bl xl mi tol g Hm Hb Ht) as Hiff.
  cbv zeta in Hx. destruct Hx as [_ Hx].
  set (r := fst (minres mat precond bl xl mi tol g)) in *.
  unfold minres_kernel in H1, H2; cbv zeta in H1, H2; fold r in H1, H2.
  cbn [fst snd] in H1, H2.
  unfold _solveWithGuess.
  destruct (solve_columns _ mi tol (bs ++ [bl]) (xs ++ [xl]) mi tol) as [[x' it] err].
  cbn [fst snd] in H1, H2. subst it err.
  split.
  - intros Hlt. apply Hiff in Hlt.
    destruct (Rle_dec (res_tol_error r) tol) as [_|H]; [reflexivity | lra].
  - destruct (Rle_dec (res_tol_error r) tol) as [H|H]; [discriminate|intros _].
    destruct Hx as [[Hlt _] | [Heq _]]; [|exact Heq].
    apply Hiff in Hlt. lra.
Qed.

Lemma solveWithGuess_minres_info_witness :
  length (@nil vec) = length (@nil vec) /\ (1 <= 1)%Z /\ 0 < squaredNorm rhs3 /\ 0 <= 1 /\
  let '(_, it, _, info) :=
    _solveWithGuess (minres_kernel mat3 precond_id g0_3) 1 1 ([] ++ [rhs3]) ([] ++ [x03]) in
  ((it < 1)%Z -> info = Success) /\ (info = NoConvergence -> it = 1%Z).
Proof.
  assert (Hb : 0 < squaredNorm rhs3) by (unfold squaredNorm, dot, rhs3; cbn; lra).
  split; [reflexivity|]. split; [lia|]. split; [exact Hb|]. split; [lra|].
  exact (solveWithGuess_minres_info mat3 precond_id g0_3 1 1 [] [] rhs3 x03
           eq_refl ltac:(lia) Hb ltac:(lra)).
Defined.

(** Lines 299-306: column [j] of the result is the kernel run on column [j]
    of [b] with column [j] of [x] as initial guess and with
    [maxIterations()] and the tolerance as budget; the other columns play
    no part in it. *)
Lemma solveWithGuess_column kernel mi tol b x j bj xj :
  nth_error b j = Some bj -> nth_error x j = Some xj ->
  nth_error (fst (fst (fst (_solveWithGuess kernel mi tol b x)))) j =
  Some (fst (fst (kernel bj xj mi tol))).
Proof.
  intros Hb Hx. unfold _solveWithGuess.
  pose proof (solve_columns_nth kernel mi tol b x mi tol j bj xj Hb Hx) as H.
  destruct (solve_columns kernel mi tol b x mi tol) as [[x' it] err]; exact H.
Qed.

Lemma solveWithGuess_column_witness :
  nth_error [rhs3; x03] 1 = Some x03 /\ nth_error [x03; rhs3] 1 = Some rhs3 /\
  nth_error (fst (fst (fst (_solveWithGuess echo_kernel 4 1 [rhs3; x03] [x03; rhs3])))) 1 =
  Some (fst (fst (echo_kernel x03 rhs3 4 1))).
Proof.
  assert (H1 : nth_error [rhs3; x03] 1 = Some x03) by reflexivity.
  assert (H2 : nth_error [x03; rhs3] 1 = Some rhs3) by reflexivity.
  split; [exact H1|]. split; [exact H2|].
  exact (solveWithGuess_column echo_kernel 4 1 _ _ 1 _ _ H1 H2).
Defined.

(** Lines 314-318: [_solve] overwrites [x] before use, so its result does
    not depend on the values stored in [x], only on the column sizes. *)
Lemma solve_ignores_guess_values kernel mi tol b x x' :
  map (@length R) x = map (@length R) x' ->
  _solve kernel mi tol b x = _solve kernel mi tol b x'.
Proof.
  intros H. unfold _solve. f_equal. unfold setOnes, vec.
  revert x' H; induction x as [|a x IH]; intros [|a' x'] H; cbn in H |- *;
    try discriminate; [reflexivity|].
  injection H as Ha Hx. rewrite !map_const_repeat, Ha, (IH x' Hx). reflexivity.
Qed.

Lemma solve_ignores_guess_values_witness :
  map (@length R) [rhs3] = map (@length R) [x03] /\
  _solve echo_kernel 4 1 [rhs3] [rhs3] = _solve echo_kernel 4 1 [rhs3] [x03].
Proof.
  assert (H : map (@length R) [rhs3] = map (@length R) [x03]) by reflexivity.
  split; [exact H | exact (solve_ignores_guess_values echo_kernel 4 1 [rhs3] _ _ H)].
Defined.
